(** * csrf: single-file Go package issuing and validating anti-forgery tokens

    Shallow embedding of [csrf.go].  Methods with a pointer receiver become
    state-passing functions: they take the receiver's state and give back an
    outcome together with the state after the call.  What a call reads from
    outside the package (the wall clock, the UUID generator) is handed to it
    in a [World].

    [sync.Mutex]: [Get], [Check] and the body of one [gc] round hold
    [dtp.mu] for every access to [dtp.tokens], so each of them is one atomic
    transition of the provider's state; that is how they are written here. *)

From Stdlib Require Import ZArith Lia.
From Stdlib.Strings Require Import Ascii String Byte.
From stdpp Require Import base strings gmap list fin_maps.

Local Open Scope string_scope.
Local Open Scope Z_scope.

(** ** The parts of package [time] the code uses

    A [Time] is the wall-clock reading in nanoseconds since the Unix epoch,
    a [Duration] a number of nanoseconds; [Unix] is the number of whole
    seconds (rounded down). *)
Module time.

Definition Time : Type := Z.
Definition Duration : Type := Z.

Definition Nanosecond : Duration := 1.
Definition Second : Duration := 1000000000 * Nanosecond.

Definition Add (t : Time) (d : Duration) : Time := t + d.
Definition Unix (t : Time) : Z := t `div` Second.

End time.

(** ** The parts of [github.com/google/uuid] the code uses

    A [UUID] is Go's [[16]byte].  [String] is the library's rendering:
    lower-case hexadecimal of bytes 0-3, 4-5, 6-7, 8-9 and 10-15, the five
    groups separated by ['-']. *)
Module uuid.

Definition UUID : Type := list Byte.byte.

Definition hextable : string := "0123456789abcdef".

Definition hexdigit (n : N) : ascii :=
  default "0"%char (String.get (N.to_nat n) hextable).

(** [hextable[v>>4]] and [hextable[v&0x0f]] *)
Definition hi (v : Byte.byte) : ascii := hexdigit (N.shiftr (Byte.to_N v) 4).
Definition lo (v : Byte.byte) : ascii := hexdigit (N.land (Byte.to_N v) 15).

(** [hex.Encode]: two digits per byte, high one first. *)
Fixpoint hex_Encode (src : list Byte.byte) : string :=
  match src with
  | [] => ""
  | v :: rest => String (hi v) (String (lo v) (hex_Encode rest))
  end.

Definition String (u : UUID) : string :=
  hex_Encode (take 4 u) +:+ "-" +:+
  hex_Encode (take 2 (drop 4 u)) +:+ "-" +:+
  hex_Encode (take 2 (drop 6 u)) +:+ "-" +:+
  hex_Encode (take 2 (drop 8 u)) +:+ "-" +:+
  hex_Encode (drop 10 u).

(** The all-zero UUID, returned next to a non-nil error. *)
Definition Nil : UUID := replicate 16 Byte.x00.

End uuid.

(** ** Errors, panics and outcomes *)

(** Go's [error] values that occur: the two package-level values made by
    [errors.New] (two allocations, so two different values), and errors that
    come from elsewhere (the UUID generator).  A nil error is [None]. *)
Inductive error : Type :=
  | ErrInvalidToken
  | errInconsistentTokenBetweenSources
  | foreign_error (msg : string).

Definition Error (e : error) : string :=
  match e with
  | ErrInvalidToken => "invalid token"
  | errInconsistentTokenBetweenSources => "inconsistent token between sources"
  | foreign_error msg => msg
  end.

Global Instance error_eq_dec : EqDecision error.
Proof. solve_decision. Defined.

(** The value a panic carries. *)
Inductive panic_value : Type :=
  | panic_error (e : error)
  | panic_string (s : string)
  | panic_runtime (msg : string).

(** A call either returns or panics. *)
Inductive outcome (A : Type) : Type :=
  | Return (a : A)
  | Panic (v : panic_value).
Arguments Return {A} a.
Arguments Panic {A} v.

(** ** Requests *)

(** A value of interface type [any]: nil, a string, or a value of some other
    dynamic type (named). *)
Inductive any : Type :=
  | any_nil
  | any_string (s : string)
  | any_other (type_name : string).

(** Context keys: the package's own key type, and keys of other packages. *)
Inductive context_key : Type :=
  | csrf_token_context_key (n : Z)
  | foreign_context_key (name : string).

Record Context : Type := { Value : context_key → any }.

(** [context.Background()]: no value under any key. *)
Definition Background : Context := {| Value := λ _, any_nil |}.

(** What the source functions read of an [*http.Request]: its context, its
    header (canonical key to values) and its parsed form. *)
Record Request : Type := {
  Request_Context : Context;
  Header : gmap string (list string);
  Form : gmap string (list string);
}.

(** [http.Header.Get] and [Request.FormValue]: the first value under the
    key, the empty string when there is none.  ([Header.Get] canonicalises
    its key first; ["X-Csrf-Token"] is already canonical.) *)
Definition first_value (m : gmap string (list string)) (key : string) : string :=
  match m !! key with
  | Some (v :: _) => v
  | _ => ""
  end.

Definition Header_Get (h : gmap string (list string)) (key : string) : string :=
  first_value h key.

Definition FormValue (r : Request) (key : string) : string :=
  first_value (Form r) key.

(** ** The world a call observes *)
Record World : Type := {
  Now : time.Time;                         (* time.Now() *)
  NewRandom : uuid.UUID * option error;    (* uuid.NewRandom() *)
}.

(** ** TokenProvider *)

Class TokenProvider (TP : Type) : Type := {
  Get : World → Context → TP → outcome (string * option error) * TP;
  Check : World → Context → string → TP → outcome (option error) * TP;
}.

(** ** DefaultTokenProvider

    [tokens] is a Go map: [None] is the nil map of a zero-value provider,
    [Some m] an allocated one. *)
Record DefaultTokenProvider : Type := {
  tokens : option (gmap string Z);
  token_ttl : time.Duration;
}.

(** [len(dtp.tokens)] *)
Definition len_tokens (dtp : DefaultTokenProvider) : nat :=
  match tokens dtp with
  | Some m => size m
  | None => 0%nat
  end.

(** [dtp.tokens[token]] in its two-result form. *)
Definition tokens_index (dtp : DefaultTokenProvider) (token : string) : Z * bool :=
  match tokens dtp with
  | Some m =>
      match m !! token with
      | Some expire_at => (expire_at, true)
      | None => (0, false)
      end
  | None => (0, false)
  end.

(** One round of the loop of [gc] after the ticker fired: with
    [current_time] read before the lock is taken, every entry that the
    [range] visits is deleted when [!(current_time.Unix() < expire_at)].
    Only the entry being visited is ever deleted, so the [range] visits
    every entry of the map as it was at the start. *)
Definition gc_range (current_time : time.Time)
    (entries acc : gmap string Z) : gmap string Z :=
  map_fold (λ token expire_at acc,
              if negb (time.Unix current_time <? expire_at)
              then delete token acc else acc)
           acc entries.

Definition gc_round (current_time : time.Time)
    (dtp : DefaultTokenProvider) : DefaultTokenProvider :=
  match tokens dtp with
  | Some m => {| tokens := Some (gc_range current_time m m);
                 token_ttl := token_ttl dtp |}
  | None => dtp
  end.

Definition DefaultTokenProvider_Get (w : World) (_ : Context)
    (dtp : DefaultTokenProvider)
    : outcome (string * option error) * DefaultTokenProvider :=
  match NewRandom w with
  | (_, Some err) => (Panic (panic_error err), dtp)
  | (uid, None) =>
      let token := uuid.String uid in
      match tokens dtp with
      | None => (Panic (panic_runtime "assignment to entry in nil map"), dtp)
      | Some m =>
          (Return (token, None),
           {| tokens := Some (<[token := time.Unix (time.Add (Now w) (token_ttl dtp))]> m);
              token_ttl := token_ttl dtp |})
      end
  end.

Definition DefaultTokenProvider_Check (w : World) (_ : Context)
    (token : string) (dtp : DefaultTokenProvider)
    : outcome (option error) * DefaultTokenProvider :=
  let '(expire_at, found) := tokens_index dtp token in
  if negb (found && (time.Unix (Now w) <? expire_at))
  then (Return (Some ErrInvalidToken), dtp)
  else (Return None, dtp).

Global Instance DefaultTokenProvider_TokenProvider
    : TokenProvider DefaultTokenProvider :=
  {| Get := DefaultTokenProvider_Get; Check := DefaultTokenProvider_Check |}.

(** [NewDefaultTokenProvider]: an allocated empty map; [token_ttl] is left
    at its zero value.  (The [gc] goroutine it starts is [gc_round] run at
    every tick.) *)
Definition NewDefaultTokenProvider : DefaultTokenProvider :=
  {| tokens := Some ∅; token_ttl := 0 |}.

(** ** CSRF *)

Record CSRF (TP : Type) : Type := New { provider : TP }.
Arguments New {TP} provider.
Arguments provider {TP} c.

Definition GetToken {TP} `{TokenProvider TP} (w : World) (ctx : Context)
    (c : CSRF TP) : outcome (string * option error) * CSRF TP :=
  let '(res, tp) := Get w ctx (provider c) in (res, New tp).

Definition TokenSourceFunc : Type := Request → outcome string.

Definition ContextTokenSource : TokenSourceFunc := λ r,
  match Value (Request_Context r) (csrf_token_context_key 0) with
  | any_string s => Return s
  | any_nil =>
      Panic (panic_runtime "interface conversion: interface {} is nil, not string")
  | any_other type_name =>
      Panic (panic_runtime
               ("interface conversion: interface {} is " +:+ type_name +:+ ", not string"))
  end.

Definition HeaderTokenSource : TokenSourceFunc := λ r,
  Return (Header_Get (Header r) "X-Csrf-Token").

Definition FormTokenSource (field : string) : TokenSourceFunc := λ r,
  Return (FormValue r field).

(** The [for _, source := range sources] loop of [Validate], from a given
    value of the local [token]: [inl e] when the loop body returns [e],
    [inr token] when the loop runs to its end. *)
Fixpoint Validate_range (r : Request) (sources : list TokenSourceFunc)
    (token : string) : outcome (error + string) :=
  match sources with
  | [] => Return (inr token)
  | source :: rest =>
      if decide (token = "") then
        match source r with
        | Return v => Validate_range r rest v
        | Panic p => Panic p
        end
      else
        match source r with
        | Return v =>
            if decide (token ≠ v)
            then Return (inl errInconsistentTokenBetweenSources)
            else Validate_range r rest token
        | Panic p => Panic p
        end
  end.

(** [return c.TokenProvider.Check(r.Context(), token)] *)
Definition delegate {TP} `{TokenProvider TP} (w : World) (r : Request)
    (token : string) (c : CSRF TP) : outcome (option error) * CSRF TP :=
  let '(res, tp) := Check w (Request_Context r) token (provider c) in
  (res, New tp).

(** [Validate] after its [len(sources) == 0] guard. *)
Definition Validate_checked {TP} `{TokenProvider TP} (w : World) (r : Request)
    (sources : list TokenSourceFunc) (c : CSRF TP)
    : outcome (option error) * CSRF TP :=
  match Validate_range r sources "" with
  | Panic p => (Panic p, c)
  | Return (inl e) => (Return (Some e), c)
  | Return (inr token) =>
      if decide (token = "") then (Return (Some ErrInvalidToken), c)
      else delegate w r token c
  end.

Definition Validate {TP} `{TokenProvider TP} (w : World) (r : Request)
    (sources : list TokenSourceFunc) (c : CSRF TP)
    : outcome (option error) * CSRF TP :=
  if (length sources =? 0)%nat
  then (Panic (panic_string "`sources` paramter is required"), c)
  else Validate_checked w r sources c.

(** ** Derived notions used to state the properties *)

(** The expiry stored for [token], if any: [dtp.tokens[token]] as an option. *)
Definition stored (dtp : DefaultTokenProvider) (token : string) : option Z :=
  m ← tokens dtp; m !! token.

(** [sources], applied to [r] in order, all return, giving the candidates
    [cs]. *)
Definition yields (r : Request) (sources : list TokenSourceFunc)
    (cs : list string) : Prop :=
  Forall2 (λ (source : TokenSourceFunc) c, source r = Return c) sources cs.

(** A run of [Get] calls, one per world, each of which returns: the tokens
    in the order returned and the provider afterwards; [None] as soon as a
    call panics. *)
Fixpoint Get_all (ws : list World) (ctx : Context) (dtp : DefaultTokenProvider)
    : option (list string * DefaultTokenProvider) :=
  match ws with
  | [] => Some ([], dtp)
  | w :: rest =>
      match DefaultTokenProvider_Get w ctx dtp with
      | (Return (token, _), dtp1) =>
          match Get_all rest ctx dtp1 with
          | Some (issued, dtp2) => Some (token :: issued, dtp2)
          | None => None
          end
      | (Panic _, _) => None
      end
  end.

(** The UUID a world's generator hands out. *)
Definition drawn (w : World) : uuid.UUID := fst (NewRandom w).

(** Reading a hexadecimal digit back: its position in [uuid.hextable]. *)
Fixpoint index_of (c : ascii) (s : string) : N :=
  match s with
  | EmptyString => 0%N
  | String c' s' => if Ascii.eqb c c' then 0%N else (1 + index_of c s')%N
  end.

Definition unhex (hi lo : ascii) : option Byte.byte :=
  Byte.of_N (index_of hi uuid.hextable * 16 + index_of lo uuid.hextable)%N.

(** ** Test doubles and sample data *)

(** A provider that only records the tokens [Check] was called with; every
    [Check] changes its state. *)
Record Recorder : Type := { checked : list string }.

Global Instance Recorder_TokenProvider : TokenProvider Recorder :=
  {| Get := λ _ _ rec, (Return ("recorded", None), rec);
     Check := λ _ _ token rec,
       (Return None, {| checked := token :: checked rec |}) |}.

Definition seconds (n : Z) : time.Time := n * time.Second.

(** 123e4567-e89b-42d3-a456-426614174000, a version-4 UUID. *)
Definition sample_uuid : uuid.UUID :=
  [x12; x3e; x45; x67; xe8; x9b; x42; xd3; xa4; x56; x42; x66; x14; x17; x40; x00]%byte.

Definition sample_token : string := "123e4567-e89b-42d3-a456-426614174000".

(** a3bb189e-8bf9-4888-9912-ace4e6543002 *)
Definition other_uuid : uuid.UUID :=
  [xa3; xbb; x18; x9e; x8b; xf9; x48; x88; x99; x12; xac; xe4; xe6; x54; x30; x02]%byte.

Definition other_token : string := "a3bb189e-8bf9-4888-9912-ace4e6543002".

Definition world (now : time.Time) (uid : uuid.UUID) : World :=
  {| Now := now; NewRandom := (uid, None) |}.

(** A provider as [NewDefaultTokenProvider] makes it, with a TTL of one
    minute set. *)
Definition minute_provider : DefaultTokenProvider :=
  {| tokens := Some ∅; token_ttl := 60 * time.Second |}.

(** A request that carries nothing: background context, no header, no form
    value. *)
Definition bare_request : Request :=
  {| Request_Context := Background; Header := ∅; Form := ∅ |}.

(** A request with the token in its header and in the form field [csrf],
    and no form field [_csrf]. *)
Definition abc_request : Request :=
  {| Request_Context := Background;
     Header := {[ "X-Csrf-Token" := ["abc"] ]};
     Form := {[ "csrf" := ["abc"] ]} |}.

(** A request whose header and form field [csrf] disagree. *)
Definition abc_xyz_request : Request :=
  {| Request_Context := Background;
     Header := {[ "X-Csrf-Token" := ["abc"] ]};
     Form := {[ "csrf" := ["xyz"] ]} |}.

(** A provider in which ["abc"] is stored with expiry 2000. *)
Definition abc_provider : DefaultTokenProvider :=
  {| tokens := Some {[ "abc" := 2000 ]}; token_ttl := 60 * time.Second |}.

(** A provider holding two tokens, expiring at 1060 and 1090. *)
Definition two_token_provider : DefaultTokenProvider :=
  {| tokens := Some (<[ sample_token := 1060 ]> {[ other_token := 1090 ]});
     token_ttl := 60 * time.Second |}.

(** What the loop of [Validate] computes from the candidates alone, once
    every source has returned. *)
Fixpoint reconcile (cs : list string) (token : string) : error + string :=
  match cs with
  | [] => inr token
  | c :: rest =>
      if decide (token = "") then reconcile rest c
      else if decide (token ≠ c)
           then inl errInconsistentTokenBetweenSources
           else reconcile rest token
  end.

(** ** The gc goroutine, calls in lock order, and the middleware *)

(** What one [select] of [gc] receives: the context is done, or the ticker
    fires, after which [time.Now()] reads [current_time]. *)
Inductive gc_event : Type :=
  | ctx_done
  | ticker_C (current_time : time.Time).

(** [gc] for the events its [select] receives in turn: it returns on
    [ctx_done] and does one round per tick.  When the events run out the
    goroutine is blocked in [select] and the provider is as the last round
    left it. *)
Fixpoint gc (events : list gc_event) (dtp : DefaultTokenProvider)
    : DefaultTokenProvider :=
  match events with
  | [] => dtp
  | ctx_done :: _ => dtp
  | ticker_C current_time :: rest => gc rest (gc_round current_time dtp)
  end.

(** The rounds a [gc] goroutine does: the ticks before the first [ctx_done]. *)
Fixpoint rounds (events : list gc_event) : list time.Time :=
  match events with
  | [] => []
  | ctx_done :: _ => []
  | ticker_C current_time :: rest => current_time :: rounds rest
  end.

(** The critical sections of a provider, in the order in which they take
    [dtp.mu]: calls of [Get] and [Check] by any goroutine, and rounds of the
    [gc] goroutine (whose [current_time] was read before it took the lock). *)
Inductive call : Type :=
  | call_Get (w : World) (ctx : Context)
  | call_Check (w : World) (ctx : Context) (token : string)
  | call_gc_round (current_time : time.Time).

Inductive call_result : Type :=
  | result_Get (o : outcome (string * option error))
  | result_Check (o : outcome (option error))
  | result_gc_round.

Definition call_step (k : call) (dtp : DefaultTokenProvider)
    : call_result * DefaultTokenProvider :=
  match k with
  | call_Get w ctx =>
      let '(o, dtp1) := DefaultTokenProvider_Get w ctx dtp in (result_Get o, dtp1)
  | call_Check w ctx token =>
      let '(o, dtp1) := DefaultTokenProvider_Check w ctx token dtp in
      (result_Check o, dtp1)
  | call_gc_round current_time => (result_gc_round, gc_round current_time dtp)
  end.

Fixpoint call_run (calls : list call) (dtp : DefaultTokenProvider)
    : list call_result * DefaultTokenProvider :=
  match calls with
  | [] => ([], dtp)
  | k :: rest =>
      let '(res, dtp1) := call_step k dtp in
      let '(results, dtp2) := call_run rest dtp1 in
      (res :: results, dtp2)
  end.

(** The wall clock does not go backwards: the [time.Now()] readings of the
    [Get] and [Check] calls, taken while the lock is held, are at least
    [t] and non-decreasing in lock order. *)
Fixpoint clock_from (t : time.Time) (calls : list call) : Prop :=
  match calls with
  | [] => True
  | call_Get w _ :: rest => t ≤ Now w ∧ clock_from (Now w) rest
  | call_Check w _ _ :: rest => t ≤ Now w ∧ clock_from (Now w) rest
  | call_gc_round _ :: rest => clock_from t rest
  end.




(** ** More sample data *)

(** The zero value [DefaultTokenProvider{}]. *)
Definition zero_provider : DefaultTokenProvider :=
  {| tokens := None; token_ttl := 0 |}.

(** A request with [sample_token] in its header. *)
Definition sample_request : Request :=
  {| Request_Context := Background;
     Header := {[ "X-Csrf-Token" := [sample_token] ]};
     Form := ∅ |}.

(** A source that panics on every request. *)
Definition panicking_source : TokenSourceFunc := λ _,
  Panic (panic_string "source failed").



(** * Properties *)

(** ** Rendering of UUIDs *)

Section hex.

Import uuid (hi, lo).

Lemma unhex_hexdigits (v : Byte.byte) : unhex (hi v) (lo v) = Some v.
Proof. destruct v; vm_compute; reflexivity. Qed.

Lemma hexdigit_hi_not_dash (v : Byte.byte) : hi v ≠ "-"%char.
Proof. destruct v; vm_compute; discriminate. Qed.

Lemma hex_Encode_cons (v : Byte.byte) (rest : list Byte.byte) :
  uuid.hex_Encode (v :: rest) = String (hi v) (String (lo v) (uuid.hex_Encode rest)).
Proof. reflexivity. Qed.

(** A group of hexadecimal digits followed by a dash determines the bytes
    of the group and what follows the dash. *)
Lemma hex_Encode_dash_inj (l1 l2 : list Byte.byte) (s1 s2 : string) :
  uuid.hex_Encode l1 +:+ String "-" s1 = uuid.hex_Encode l2 +:+ String "-" s2 →
  l1 = l2 ∧ s1 = s2.
Proof.
  revert l2. induction l1 as [|a l1 IH]; intros [|b l2] Heq.
  - simpl in Heq. by injection Heq.
  - rewrite hex_Encode_cons in Heq. simpl in Heq.
    injection Heq as Hc _. by destruct (hexdigit_hi_not_dash b).
  - rewrite hex_Encode_cons in Heq. simpl in Heq.
    injection Heq as Hc _. by destruct (hexdigit_hi_not_dash a).
  - rewrite !hex_Encode_cons in Heq. simpl in Heq.
    injection Heq as Hhi Hlo Hrest.
    destruct (IH _ Hrest) as [-> ->]. split; [|done].
    f_equal. apply (inj Some).
    by rewrite <- (unhex_hexdigits a), <- (unhex_hexdigits b), Hhi, Hlo.
Qed.

Lemma hex_Encode_inj (l1 l2 : list Byte.byte) :
  uuid.hex_Encode l1 = uuid.hex_Encode l2 → l1 = l2.
Proof.
  revert l2. induction l1 as [|a l1 IH]; intros [|b l2] Heq; try done.
  rewrite !hex_Encode_cons in Heq. injection Heq as Hhi Hlo Hrest.
  f_equal; [|by apply IH]. apply (inj Some).
  by rewrite <- (unhex_hexdigits a), <- (unhex_hexdigits b), Hhi, Hlo.
Qed.

End hex.

(** The five groups of a UUID, put back together. *)
Lemma uuid_groups (u : uuid.UUID) :
  u = (take 4 u ++ take 2 (drop 4 u) ++ take 2 (drop 6 u)
         ++ take 2 (drop 8 u) ++ drop 10 u)%list.
Proof.
  rewrite <- (take_drop 4 u) at 1. f_equal.
  rewrite <- (take_drop 2 (drop 4 u)) at 1. f_equal. rewrite drop_drop.
  rewrite <- (take_drop 2 (drop (4 + 2) u)) at 1. f_equal. rewrite drop_drop.
  rewrite <- (take_drop 2 (drop (4 + 2 + 2) u)) at 1. f_equal.
  by rewrite drop_drop.
Qed.

(** Two UUIDs with the same text are the same UUID. *)
Lemma uuid_String_inj (u v : uuid.UUID) : uuid.String u = uuid.String v → u = v.
Proof.
  unfold uuid.String. intros H.
  apply hex_Encode_dash_inj in H as [H1 H].
  apply hex_Encode_dash_inj in H as [H2 H].
  apply hex_Encode_dash_inj in H as [H3 H].
  apply hex_Encode_dash_inj in H as [H4 H].
  apply hex_Encode_inj in H.
  rewrite (uuid_groups u), (uuid_groups v). congruence.
Qed.

(** ** DefaultTokenProvider *)

Section provider.

Implicit Types (dtp : DefaultTokenProvider) (w : World) (ctx : Context).
Implicit Types (token : string) (m : gmap string Z).

Lemma stored_index dtp token :
  tokens_index dtp token =
    match stored dtp token with
    | Some expire_at => (expire_at, true)
    | None => (0, false)
    end.
Proof.
  unfold tokens_index, stored. destruct (tokens dtp) as [m|]; simpl; [|done].
  by destruct (m !! token).
Qed.

(** [Check] has no assignment to, and no [delete] from, [dtp.tokens]. *)
Lemma Check_keeps_state w ctx token dtp :
  snd (Check w ctx token dtp) = dtp.
Proof.
  simpl. unfold DefaultTokenProvider_Check.
  destruct (tokens_index dtp token) as [expire_at found].
  by destruct (negb _).
Qed.

Lemma Check_live w ctx token dtp expire_at :
  stored dtp token = Some expire_at →
  time.Unix (Now w) < expire_at →
  Check w ctx token dtp = (Return None, dtp).
Proof.
  intros Hst Hlt. simpl. unfold DefaultTokenProvider_Check.
  rewrite stored_index, Hst. simpl.
  by rewrite (proj2 (Z.ltb_lt _ _) Hlt).
Qed.

Lemma Check_expired w ctx token dtp expire_at :
  stored dtp token = Some expire_at →
  expire_at ≤ time.Unix (Now w) →
  Check w ctx token dtp = (Return (Some ErrInvalidToken), dtp).
Proof.
  intros Hst Hle. simpl. unfold DefaultTokenProvider_Check.
  rewrite stored_index, Hst. simpl.
  by rewrite (proj2 (Z.ltb_ge _ _) Hle).
Qed.

Lemma Check_absent w ctx token dtp :
  stored dtp token = None →
  Check w ctx token dtp = (Return (Some ErrInvalidToken), dtp).
Proof.
  intros Hst. simpl. unfold DefaultTokenProvider_Check.
  by rewrite stored_index, Hst.
Qed.

(** What the [range] of [gc] leaves under a key. *)
Lemma gc_range_lookup (current_time : time.Time) (entries acc : gmap string Z) token :
  gc_range current_time entries acc !! token =
    match entries !! token with
    | Some expire_at =>
        if time.Unix current_time <? expire_at then acc !! token else None
    | None => acc !! token
    end.
Proof.
  unfold gc_range.
  apply (map_fold_weak_ind (λ (r : gmap string Z) (visited : gmap string Z),
    r !! token =
      match visited !! token with
      | Some expire_at =>
          if time.Unix current_time <? expire_at then acc !! token else None
      | None => acc !! token
      end)).
  - by rewrite lookup_empty.
  - intros i x visited r Hfresh IH.
    destruct (decide (i = token)) as [->|Hne].
    + rewrite lookup_insert_eq. rewrite Hfresh in IH.
      destruct (time.Unix current_time <? x); simpl; [done|].
      apply lookup_delete_eq.
    + rewrite lookup_insert_ne by done.
      destruct (time.Unix current_time <? x); simpl; [done|].
      by rewrite lookup_delete_ne.
Qed.

Lemma gc_round_stored (current_time : time.Time) dtp token :
  stored (gc_round current_time dtp) token =
    match stored dtp token with
    | Some expire_at =>
        if decide (time.Unix current_time < expire_at)
        then Some expire_at else None
    | None => None
    end.
Proof.
  unfold gc_round, stored. destruct (tokens dtp) as [m|] eqn:Hm; simpl.
  - rewrite gc_range_lookup. destruct (m !! token) as [e|]; [|done].
    destruct (Z.ltb_spec (time.Unix current_time) e); case_decide; done || lia.
  - by rewrite Hm.
Qed.

Lemma Get_stored w ctx dtp token r dtp1 :
  Get w ctx dtp = (Return r, dtp1) →
  r = (uuid.String (drawn w), None) ∧
  token_ttl dtp1 = token_ttl dtp ∧
  stored dtp1 token =
    if decide (uuid.String (drawn w) = token)
    then Some (time.Unix (time.Add (Now w) (token_ttl dtp)))
    else stored dtp token.
Proof.
  simpl. unfold DefaultTokenProvider_Get, drawn, stored.
  destruct (NewRandom w) as [uid [err|]]; [done|].
  destruct (tokens dtp) as [m|]; [|done].
  intros [= <- <-]. simpl. split; [done|]. split; [done|].
  rewrite lookup_insert. by repeat case_decide.
Qed.

Lemma Get_len_fresh w ctx dtp r dtp1 :
  Get w ctx dtp = (Return r, dtp1) →
  stored dtp (uuid.String (drawn w)) = None →
  len_tokens dtp1 = S (len_tokens dtp).
Proof.
  simpl. unfold DefaultTokenProvider_Get, drawn, stored, len_tokens.
  destruct (NewRandom w) as [uid [err|]]; [done|].
  destruct (tokens dtp) as [m|]; [|done].
  intros [= <- <-]. simpl. intros Hnone. by apply map_size_insert_None.
Qed.

End provider.

(** A provider made by [NewDefaultTokenProvider] has [token_ttl] zero: a
    token it issues is stored with the second of issue as its expiry, and a
    [Check] at that second or later returns [ErrInvalidToken]. *)
Lemma NewDefaultTokenProvider_token_expired_at_issue (w w' : World)
    (ctx : Context) (r : string * option error) (dtp1 : DefaultTokenProvider) :
  Get w ctx NewDefaultTokenProvider = (Return r, dtp1) →
  time.Unix (Now w) ≤ time.Unix (Now w') →
  stored dtp1 (fst r) = Some (time.Unix (Now w)) ∧
  Check w' ctx (fst r) dtp1 = (Return (Some ErrInvalidToken), dtp1).
Proof.
  intros Hget Hle.
  destruct (Get_stored w ctx _ (fst r) _ _ Hget) as (-> & _ & Hst).
  simpl in Hst. rewrite decide_True in Hst by done.
  unfold time.Add in Hst. rewrite Z.add_0_r in Hst.
  split; [done|]. by apply (Check_expired w' ctx _ dtp1 (time.Unix (Now w))).
Qed.

Lemma Get_all_tokens (ws : list World) (ctx : Context)
    (dtp dtp' : DefaultTokenProvider) (issued : list string) :
  Get_all ws ctx dtp = Some (issued, dtp') →
  issued = map (λ w, uuid.String (drawn w)) ws ∧ token_ttl dtp' = token_ttl dtp.
Proof.
  revert dtp issued. induction ws as [|w rest IH]; intros dtp issued; simpl.
  - by intros [= <- <-].
  - destruct (DefaultTokenProvider_Get w ctx dtp) as [[[token err]|p] dtp1] eqn:Hget;
      [|done].
    destruct (Get_all rest ctx dtp1) as [[issued1 dtp2]|] eqn:Hrest; [|done].
    intros [= <- <-].
    destruct (Get_stored w ctx dtp "" _ _ Hget) as ([= -> ->] & Httl & _).
    destruct (IH _ _ Hrest) as [-> Httl']. split; [done | congruence].
Qed.

(** A run of [Get] calls that draws pairwise different UUIDs, none of them
    a key of the map yet, inserts a new key every time. *)
Lemma Get_all_fresh (ws : list World) (ctx : Context)
    (dtp dtp' : DefaultTokenProvider) (issued : list string) :
  Get_all ws ctx dtp = Some (issued, dtp') →
  NoDup (map drawn ws) →
  (∀ w, w ∈ ws → stored dtp (uuid.String (drawn w)) = None) →
  NoDup issued ∧
  len_tokens dtp' = (len_tokens dtp + length ws)%nat ∧
  (∀ token expire_at,
     stored dtp token = Some expire_at → stored dtp' token = Some expire_at).
Proof.
  revert dtp issued. induction ws as [|w rest IH]; intros dtp issued; simpl.
  - intros [= <- <-] _ _. split; [constructor|]. split; [lia | done].
  - destruct (DefaultTokenProvider_Get w ctx dtp) as [[[token err]|p] dtp1] eqn:Hget;
      [|done].
    destruct (Get_all rest ctx dtp1) as [[issued1 dtp2]|] eqn:Hrest; [|done].
    intros [= <- <-] Hnd Hfresh.
    apply NoDup_cons in Hnd as [Hw Hnd].
    assert (Hstep : ∀ t, stored dtp1 t =
              if decide (uuid.String (drawn w) = t)
              then Some (time.Unix (time.Add (Now w) (token_ttl dtp)))
              else stored dtp t).
    { intros t. by destruct (Get_stored w ctx dtp t _ _ Hget) as (_ & _ & ?). }
    destruct (Get_stored w ctx dtp "" _ _ Hget) as ([= -> ->] & _ & _).
    assert (Hother : ∀ w', w' ∈ rest → uuid.String (drawn w) ≠ uuid.String (drawn w')).
    { intros w' Hin Heq. apply Hw. apply uuid_String_inj in Heq. rewrite Heq.
      apply list_elem_of_fmap. by exists w'. }
    destruct (IH dtp1 issued1 Hrest Hnd) as (Hnd1 & Hlen & Hkeep).
    { intros w' Hin. rewrite Hstep. rewrite decide_False by by apply Hother.
      apply Hfresh. by right. }
    split; [|split].
    + apply NoDup_cons. split; [|done].
      destruct (Get_all_tokens _ _ _ _ _ Hrest) as [-> _].
      intros Hin. apply list_elem_of_fmap in Hin as (w' & Heq & Hin).
      by apply (Hother w' Hin).
    + rewrite Hlen, (Get_len_fresh w ctx dtp _ _ Hget); [lia|].
      apply Hfresh. by left.
    + intros t e Hst. apply Hkeep. rewrite Hstep.
      rewrite decide_False; [done|]. intros <-.
      rewrite (Hfresh w) in Hst; [done | by left].
Qed.

Lemma Get_all_stored (ws : list World) (ctx : Context)
    (dtp dtp' : DefaultTokenProvider) (issued : list string)
    (token : string) (expire_at : Z) :
  Get_all ws ctx dtp = Some (issued, dtp') →
  stored dtp' token = Some expire_at →
  stored dtp token = Some expire_at ∨
  ∃ w, w ∈ ws ∧ expire_at = time.Unix (time.Add (Now w) (token_ttl dtp)).
Proof.
  revert dtp issued. induction ws as [|w rest IH]; intros dtp issued; simpl.
  - intros [= <- <-] Hst. by left.
  - destruct (DefaultTokenProvider_Get w ctx dtp) as [[[tok err]|p] dtp1] eqn:Hget;
      [|done].
    destruct (Get_all rest ctx dtp1) as [[issued1 dtp2]|] eqn:Hrest; [|done].
    intros [= <- <-] Hst.
    destruct (Get_stored w ctx dtp token _ _ Hget) as (_ & Httl & Hstep).
    destruct (IH _ _ Hrest Hst) as [Hst1|(w' & Hin & ->)].
    + rewrite Hstep in Hst1. case_decide.
      * injection Hst1 as <-. right. exists w. split; [by left | done].
      * by left.
    + right. exists w'. split; [by right | by rewrite Httl].
Qed.

(** C1 (the code departs from the claim): a token issued by [Get] at second
    1000 with a TTL of one minute is accepted by [Check] at second 1001, but
    that call does not remove its entry; the provider is left as it was, and
    a second [Check] of the same token, at second 1002, returns nil again
    instead of [ErrInvalidToken]. *)
Theorem Check_accepts_token_twice :
  ∃ dtp1 : DefaultTokenProvider,
    Get (world (seconds 1000) sample_uuid) Background minute_provider
      = (Return (sample_token, None), dtp1) ∧
    stored dtp1 sample_token = Some 1060 ∧
    Check (world (seconds 1001) other_uuid) Background sample_token dtp1
      = (Return None, dtp1) ∧
    Check (world (seconds 1002) other_uuid) Background sample_token dtp1
      = (Return None, dtp1).
Proof.
  eexists. split; [vm_compute; reflexivity|].
  split; [vm_compute; reflexivity|].
  split; vm_compute; reflexivity.
Qed.

(** C4: for every stored token and every time of call at or after its
    [expire_at], [Check] returns [ErrInvalidToken], although the entry is
    still in the map, and the provider after the call is the provider before
    it: the mapping is unchanged. *)
Theorem Check_expired_invalid (w : World) (ctx : Context) (token : string)
    (dtp : DefaultTokenProvider) (expire_at : Z) :
  stored dtp token = Some expire_at →
  expire_at ≤ time.Unix (Now w) →
  Check w ctx token dtp = (Return (Some ErrInvalidToken), dtp) ∧
  stored (snd (Check w ctx token dtp)) token = Some expire_at.
Proof.
  intros Hst Hle. rewrite (Check_expired w ctx token dtp expire_at Hst Hle).
  by split.
Qed.

Lemma Check_expired_invalid_witness :
  stored two_token_provider sample_token = Some 1060 ∧
  1060 ≤ time.Unix (Now (world (seconds 1060) other_uuid)) ∧
  Check (world (seconds 1060) other_uuid) Background sample_token two_token_provider
    = (Return (Some ErrInvalidToken), two_token_provider).
Proof.
  split; [vm_compute; reflexivity|].
  split; [vm_compute; discriminate|].
  apply (Check_expired_invalid (world (seconds 1060) other_uuid) Background
           sample_token two_token_provider 1060).
  - vm_compute; reflexivity.
  - vm_compute; discriminate.
Defined.

(** One round of [gc], a single transition of the provider made while
    [dtp.mu] is held, keeps an entry exactly when its [expire_at] is still
    ahead of the round's [current_time] and removes it exactly when
    [expire_at] has passed; no unexpired entry is removed and nothing else
    changes.  So a round run once every entry has expired leaves
    [len(dtp.tokens) = 0]; in particular a round run after the N tokens
    issued by N calls of [Get] on a new provider have all expired. *)
Theorem gc_round_removes_exactly_expired (current_time : time.Time)
    (dtp : DefaultTokenProvider) :
  (∀ token : string,
     stored (gc_round current_time dtp) token =
       match stored dtp token with
       | Some expire_at =>
           if decide (time.Unix current_time < expire_at)
           then Some expire_at else None
       | None => None
       end) ∧
  token_ttl (gc_round current_time dtp) = token_ttl dtp ∧
  ((∀ (token : string) (expire_at : Z),
      stored dtp token = Some expire_at → expire_at ≤ time.Unix current_time) →
   len_tokens (gc_round current_time dtp) = 0%nat) ∧
  (∀ (ws : list World) (ctx : Context) (issued : list string)
     (dtp0 : DefaultTokenProvider),
     tokens dtp0 = Some ∅ →
     Get_all ws ctx dtp0 = Some (issued, dtp) →
     (∀ w, w ∈ ws →
        time.Unix (time.Add (Now w) (token_ttl dtp0)) ≤ time.Unix current_time) →
     len_tokens (gc_round current_time dtp) = 0%nat).
Proof.
  assert (Hempty : (∀ (token : string) (expire_at : Z),
      stored dtp token = Some expire_at → expire_at ≤ time.Unix current_time) →
   len_tokens (gc_round current_time dtp) = 0%nat); last first.
  { split; [apply gc_round_stored|]. split.
    { unfold gc_round. by destruct (tokens dtp). }
    split; [exact Hempty|].
    intros ws ctx issued dtp0 Hnew Hrun Hexp. apply Hempty.
    intros token expire_at Hst.
    destruct (Get_all_stored _ _ _ _ _ _ _ Hrun Hst) as [Hst0|(w & Hin & ->)].
    - unfold stored in Hst0. rewrite Hnew in Hst0. simpl in Hst0.
      by rewrite lookup_empty in Hst0.
    - by apply Hexp. }
  - intros Hall. pose proof (gc_round_stored current_time dtp) as Hst.
    unfold len_tokens. unfold stored in *.
    destruct (tokens (gc_round current_time dtp)) as [m'|] eqn:Hm'; [|done].
    replace m' with (∅ : gmap string Z); [apply map_size_empty|].
    symmetry. apply map_empty. intros token. specialize (Hst token).
    simpl in Hst. rewrite Hst.
    destruct (tokens dtp) as [m|]; simpl in *; [|done].
    destruct (m !! token) as [e|] eqn:He; [|done].
    specialize (Hall token e He). case_decide; [lia | done].
Qed.

Lemma gc_round_removes_exactly_expired_witness :
  ((∀ (token : string) (expire_at : Z),
      stored two_token_provider token = Some expire_at →
      expire_at ≤ time.Unix (seconds 1090)) ∧
   len_tokens two_token_provider = 2%nat ∧
   len_tokens (gc_round (seconds 1090) two_token_provider) = 0%nat) ∧
  (∃ dtp : DefaultTokenProvider,
     Get_all [world (seconds 1000) sample_uuid; world (seconds 1030) other_uuid]
             Background minute_provider
       = Some ([sample_token; other_token], dtp) ∧
     len_tokens dtp = 2%nat ∧
     len_tokens (gc_round (seconds 1090) dtp) = 0%nat).
Proof.
  assert (Hall : ∀ (token : string) (expire_at : Z),
            stored two_token_provider token = Some expire_at →
            expire_at ≤ time.Unix (seconds 1090)).
  { intros token expire_at. unfold stored, two_token_provider. simpl.
    rewrite lookup_insert. case_decide.
    - intros [= <-]. vm_compute; discriminate.
    - rewrite lookup_singleton. case_decide; [|done].
      intros [= <-]. vm_compute; discriminate. }
  split.
  - split; [exact Hall|]. split; [vm_compute; reflexivity|].
    exact (proj1 (proj2 (proj2 (gc_round_removes_exactly_expired (seconds 1090)
                                  two_token_provider))) Hall).
  - eexists. split; [vm_compute; reflexivity|].
    split; [vm_compute; reflexivity|].
    eapply (proj2 (proj2 (proj2 (gc_round_removes_exactly_expired (seconds 1090) _)))
              [world (seconds 1000) sample_uuid; world (seconds 1030) other_uuid]
              Background [sample_token; other_token] minute_provider).
    + reflexivity.
    + vm_compute; reflexivity.
    + intros w Hin.
      apply elem_of_cons in Hin as [->|Hin]; [vm_compute; discriminate|].
      apply list_elem_of_singleton in Hin as ->. vm_compute; discriminate.
Defined.

(** C8 does not hold as stated: [Get] makes no collision check.  When the
    generator hands out the same UUID twice, the second [Get] returns the
    token the first one returned and overwrites the entry stored for it (its
    expiry moves from 1060 to 1090; the map still has one entry). *)
Lemma Get_same_uuid_returns_stored_token :
  ∃ dtp1 dtp2 : DefaultTokenProvider,
    Get (world (seconds 1000) sample_uuid) Background minute_provider
      = (Return (sample_token, None), dtp1) ∧
    stored dtp1 sample_token = Some 1060 ∧
    Get (world (seconds 1030) sample_uuid) Background dtp1
      = (Return (sample_token, None), dtp2) ∧
    stored dtp2 sample_token = Some 1090 ∧
    len_tokens dtp2 = 1%nat ∧
    Get_all [world (seconds 1000) sample_uuid; world (seconds 1030) sample_uuid]
            Background minute_provider
      = Some ([sample_token; sample_token], dtp2) ∧
    ¬ NoDup [sample_token; sample_token].
Proof.
  do 2 eexists.
  split; [vm_compute; reflexivity|].
  split; [vm_compute; reflexivity|].
  split; [vm_compute; reflexivity|].
  split; [vm_compute; reflexivity|].
  split; [vm_compute; reflexivity|].
  split; [vm_compute; reflexivity|].
  intros Hnd. apply NoDup_cons in Hnd as [Hin _]. apply Hin. by left.
Qed.

(** C8, amended: [Get] returns the text of the UUID the generator hands out
    and stores it under that key, without looking whether the key is already
    there.  For every run of [Get] calls that all return and whose UUIDs are
    pairwise different and not yet keys of the map, the returned tokens are
    the texts of those UUIDs, they are pairwise distinct, every call adds a
    new entry, and every entry that was in the map before is still there
    with its expiry. *)
Theorem Get_distinct_uuids_distinct_tokens (ws : list World) (ctx : Context)
    (dtp dtp' : DefaultTokenProvider) (issued : list string) :
  Get_all ws ctx dtp = Some (issued, dtp') →
  NoDup (map drawn ws) →
  (∀ w, w ∈ ws → stored dtp (uuid.String (drawn w)) = None) →
  issued = map (λ w, uuid.String (drawn w)) ws ∧
  NoDup issued ∧
  len_tokens dtp' = (len_tokens dtp + length ws)%nat ∧
  (∀ token expire_at,
     stored dtp token = Some expire_at → stored dtp' token = Some expire_at).
Proof.
  intros Hrun Hnd Hfresh. split.
  - by destruct (Get_all_tokens _ _ _ _ _ Hrun).
  - by apply (Get_all_fresh ws ctx).
Qed.

Lemma Get_distinct_uuids_distinct_tokens_witness :
  ∃ dtp' : DefaultTokenProvider,
    Get_all [world (seconds 1000) sample_uuid; world (seconds 1030) other_uuid]
            Background minute_provider
      = Some ([sample_token; other_token], dtp') ∧
    NoDup [sample_token; other_token] ∧
    len_tokens dtp' = 2%nat.
Proof.
  eexists. split; [vm_compute; reflexivity|].
  edestruct (Get_distinct_uuids_distinct_tokens
    [world (seconds 1000) sample_uuid; world (seconds 1030) other_uuid]
    Background minute_provider) as (_ & Hnd & Hlen & _).
  - vm_compute; reflexivity.
  - apply NoDup_cons. split.
    + intros Hin. apply list_elem_of_singleton in Hin. discriminate Hin.
    + apply NoDup_singleton.
  - intros w _. reflexivity.
  - split; [exact Hnd | exact Hlen].
Defined.

(** C10: [Get] never returns a non-nil error.  When [uuid.NewRandom] fails,
    [Get] panics with that error; when it succeeds and the map is
    allocated, [Get] returns the UUID's text and a nil error; so whenever
    [Get] returns, its error result is nil, and the same holds for
    [CSRF.GetToken], which returns what the provider's [Get] returns. *)
Theorem Get_returns_nil_error (w : World) (ctx : Context)
    (dtp : DefaultTokenProvider) :
  (∀ token err dtp',
     Get w ctx dtp = (Return (token, err), dtp') → err = None) ∧
  (∀ token err c',
     GetToken w ctx (New dtp) = (Return (token, err), c') → err = None) ∧
  (∀ uid err,
     NewRandom w = (uid, Some err) →
     Get w ctx dtp = (Panic (panic_error err), dtp)) ∧
  (∀ uid m,
     NewRandom w = (uid, None) → tokens dtp = Some m →
     ∃ dtp', Get w ctx dtp = (Return (uuid.String uid, None), dtp') ∧
             GetToken w ctx (New dtp) = (Return (uuid.String uid, None), New dtp')).
Proof.
  split; [|split; [|split]].
  - intros token err dtp' Hget.
    by destruct (Get_stored w ctx dtp "" _ _ Hget) as ([= _ ->] & _).
  - intros token err c'. unfold GetToken. simpl.
    destruct (DefaultTokenProvider_Get w ctx dtp) as [res dtp1] eqn:Hget.
    intros [= -> _].
    by destruct (Get_stored w ctx dtp "" _ _ Hget) as ([= _ ->] & _).
  - intros uid err Hrnd. simpl. unfold DefaultTokenProvider_Get. by rewrite Hrnd.
  - intros uid m Hrnd Hm. unfold GetToken. simpl.
    unfold DefaultTokenProvider_Get. rewrite Hrnd, Hm. by eexists.
Qed.

Lemma Get_returns_nil_error_witness :
  ∃ dtp' : DefaultTokenProvider,
    Get (world (seconds 1000) sample_uuid) Background minute_provider
      = (Return (sample_token, None), dtp') ∧
    (None : option error) = None.
Proof.
  eexists. split; [vm_compute; reflexivity|].
  eapply (proj1 (Get_returns_nil_error (world (seconds 1000) sample_uuid)
                   Background minute_provider) sample_token).
  vm_compute; reflexivity.
Defined.

(** ** Source functions *)

Lemma first_value_absent (m : gmap string (list string)) (key : string) :
  m !! key = None → first_value m key = "".
Proof. intros Hm. unfold first_value. by rewrite Hm. Qed.

Lemma HeaderTokenSource_unset (r : Request) :
  Header r !! "X-Csrf-Token" = None → HeaderTokenSource r = Return "".
Proof.
  intros Hh. unfold HeaderTokenSource, Header_Get. by rewrite first_value_absent.
Qed.

Lemma FormTokenSource_absent (field : string) (r : Request) :
  Form r !! field = None → FormTokenSource field r = Return "".
Proof.
  intros Hf. unfold FormTokenSource, FormValue. by rewrite first_value_absent.
Qed.

(** The type assertion [.(string)] has no second result: on a context
    without a token it does not yield the empty string. *)
Lemma ContextTokenSource_no_value (r : Request) :
  Value (Request_Context r) (csrf_token_context_key 0) = any_nil →
  ∃ p, ContextTokenSource r = Panic p.
Proof. intros Hv. unfold ContextTokenSource. rewrite Hv. by eexists. Qed.

(** ** The loop of Validate *)

Lemma Validate_range_yields (r : Request) (sources : list TokenSourceFunc)
    (cs : list string) (token : string) :
  yields r sources cs →
  Validate_range r sources token = Return (reconcile cs token).
Proof.
  intros Hy. revert token.
  induction Hy as [|source c sources cs Hsrc _ IH]; intros token; simpl; [done|].
  rewrite Hsrc. repeat case_decide; done.
Qed.

Lemma reconcile_skips_leading_empty (pre rest : list string) :
  Forall (λ c, c = "") pre → reconcile (pre ++ rest)%list "" = reconcile rest "".
Proof.
  induction 1 as [|c pre -> _ IH]; simpl; [done|]. exact IH.
Qed.

Lemma reconcile_mismatch (cs : list string) (token c : string) :
  token ≠ "" → c ∈ cs → c ≠ token →
  reconcile cs token = inl errInconsistentTokenBetweenSources.
Proof.
  intros Htok Hin Hne. induction cs as [|c' cs IH]; [by apply elem_of_nil in Hin|].
  simpl. rewrite decide_False by done.
  case_decide; [done|].
  apply IH. apply elem_of_cons in Hin as [->|Hin]; [|done].
  exfalso. apply Hne. symmetry. by apply dec_stable.
Qed.

Lemma reconcile_agree (cs : list string) (token : string) :
  token ≠ "" → Forall (λ c, c = token) cs → reconcile cs token = inr token.
Proof.
  intros Htok. induction 1 as [|c cs -> _ IH]; simpl; [done|].
  rewrite decide_False by done. by rewrite decide_False by (by intros ?).
Qed.

Lemma reconcile_disagree (cs : list string) (i j : nat) (ci cj : string) :
  cs !! i = Some ci → cs !! j = Some cj → i ≠ j →
  ci ≠ "" → cj ≠ "" → ci ≠ cj →
  reconcile cs "" = inl errInconsistentTokenBetweenSources.
Proof.
  revert i j. induction cs as [|c cs IH]; intros i j Hi Hj Hij Hci Hcj Hne;
    [done|].
  simpl. destruct (decide (c = "")) as [->|Hc].
  - destruct i as [|i]; [by injection Hi as <-|].
    destruct j as [|j]; [by injection Hj as <-|].
    apply (IH i j); auto.
  - assert (Hmem : ∀ k ck, cs !! k = Some ck → ck ∈ cs).
    { intros k ck Hk. apply list_elem_of_lookup. by exists k. }
    destruct i as [|i]; destruct j as [|j]; simpl in Hi, Hj; [done| | |].
    + injection Hi as ->. apply (reconcile_mismatch cs ci cj); eauto.
    + injection Hj as ->. apply (reconcile_mismatch cs cj ci); eauto.
    + destruct (decide (ci = c)) as [->|Hcic].
      * apply (reconcile_mismatch cs c cj); eauto.
      * apply (reconcile_mismatch cs c ci); eauto.
Qed.

Section validate.

Context {TP : Type} `{TokenProvider TP}.
Implicit Types (w : World) (r : Request) (c : CSRF TP).
Implicit Types (sources : list TokenSourceFunc) (cs : list string).

Lemma Validate_some_source w r source rest c :
  Validate w r (source :: rest) c = Validate_checked w r (source :: rest) c.
Proof. reflexivity. Qed.

Lemma Validate_yields w r sources cs c :
  sources ≠ [] → yields r sources cs →
  Validate w r sources c =
    match reconcile cs "" with
    | inl e => (Return (Some e), c)
    | inr token =>
        if decide (token = "") then (Return (Some ErrInvalidToken), c)
        else delegate w r token c
    end.
Proof.
  intros Hne Hy. destruct sources as [|source rest]; [done|].
  rewrite Validate_some_source. unfold Validate_checked.
  by rewrite (Validate_range_yields _ _ _ _ Hy).
Qed.

Lemma yields_nonempty r sources cs :
  yields r sources cs → cs ≠ [] → sources ≠ [].
Proof. intros Hy Hcs ->. by apply Forall2_nil_inv_l in Hy. Qed.

End validate.

(** ** Validate *)

(** C2 (the code departs from the claim): with the header carrying
    ["abc"], the form field [_csrf] absent and the form field [csrf]
    carrying ["abc"], the sources yield ["abc"], [""], ["abc"]; [Validate]
    compares the empty second candidate with ["abc"] and returns the
    inconsistency error, although ["abc"] is a live token that [Check]
    accepts.  The loop does skip an empty candidate that comes before the
    first non-empty one: the same request with the absent form field asked
    first, or the header asked before the absent field only, is accepted or
    refused according to the order of the sources. *)
Theorem Validate_abc_empty_abc_inconsistent :
  let w := world (seconds 1000) sample_uuid in
  let sources := [HeaderTokenSource; FormTokenSource "_csrf"; FormTokenSource "csrf"] in
  yields abc_request sources ["abc"; ""; "abc"] ∧
  Validate w abc_request sources (New abc_provider)
    = (Return (Some errInconsistentTokenBetweenSources), New abc_provider) ∧
  delegate w abc_request "abc" (New abc_provider)
    = (Return None, New abc_provider) ∧
  Validate w abc_request sources (New abc_provider)
    ≠ delegate w abc_request "abc" (New abc_provider) ∧
  yields abc_request
    [FormTokenSource "_csrf"; HeaderTokenSource; FormTokenSource "csrf"]
    [""; "abc"; "abc"] ∧
  Validate w abc_request
      [FormTokenSource "_csrf"; HeaderTokenSource; FormTokenSource "csrf"]
      (New abc_provider)
    = (Return None, New abc_provider) ∧
  Validate w abc_request [FormTokenSource "_csrf"; HeaderTokenSource]
      (New abc_provider)
    = (Return None, New abc_provider) ∧
  Validate w abc_request [HeaderTokenSource; FormTokenSource "_csrf"]
      (New abc_provider)
    = (Return (Some errInconsistentTokenBetweenSources), New abc_provider).
Proof.
  split; [repeat constructor|].
  split; [vm_compute; reflexivity|].
  split; [vm_compute; reflexivity|].
  split; [vm_compute; discriminate|].
  split; [repeat constructor|].
  split; [vm_compute; reflexivity|].
  split; vm_compute; reflexivity.
Qed.

(** C5: when there is at least one source and every source returns the
    empty string, [Validate] returns [ErrInvalidToken] and the provider is
    left as it was, whatever its [Check] does: [Check] is not called. *)
Theorem Validate_all_empty_invalid {TP : Type} `{TokenProvider TP}
    (w : World) (r : Request) (sources : list TokenSourceFunc) (c : CSRF TP) :
  sources ≠ [] →
  Forall (λ source : TokenSourceFunc, source r = Return "") sources →
  Validate w r sources c = (Return (Some ErrInvalidToken), c).
Proof.
  intros Hne Hall.
  assert (Hy : yields r sources (replicate (length sources) "")).
  { clear Hne. induction Hall; constructor; done. }
  rewrite (Validate_yields w r sources _ c Hne Hy).
  rewrite <- (app_nil_r (replicate _ _)).
  rewrite reconcile_skips_leading_empty; [done|].
  apply Forall_forall. by intros x [-> _]%elem_of_replicate.
Qed.

Lemma Validate_all_empty_invalid_witness :
  Forall (λ source : TokenSourceFunc, source bare_request = Return "")
         [HeaderTokenSource; FormTokenSource "csrf"] ∧
  Validate (world (seconds 1000) sample_uuid) bare_request
      [HeaderTokenSource; FormTokenSource "csrf"] (New {| checked := [] |})
    = (Return (Some ErrInvalidToken), New {| checked := [] |}).
Proof.
  assert (Hall : Forall (λ source : TokenSourceFunc, source bare_request = Return "")
                        [HeaderTokenSource; FormTokenSource "csrf"]).
  { repeat constructor. }
  split; [exact Hall|].
  apply Validate_all_empty_invalid; [discriminate | exact Hall].
Defined.

(** C6: when two of the candidates the sources yield are non-empty and
    differ, [Validate] returns [errInconsistentTokenBetweenSources], a value
    different from [ErrInvalidToken] (with a different message), and the
    provider is left as it was, whatever its [Check] does: [Check] is not
    called and no token is consumed. *)
Theorem Validate_disagreeing_sources_inconsistent {TP : Type} `{TokenProvider TP}
    (w : World) (r : Request) (sources : list TokenSourceFunc) (c : CSRF TP)
    (cs : list string) (i j : nat) (ci cj : string) :
  yields r sources cs →
  cs !! i = Some ci → cs !! j = Some cj → i ≠ j →
  ci ≠ "" → cj ≠ "" → ci ≠ cj →
  Validate w r sources c
    = (Return (Some errInconsistentTokenBetweenSources), c) ∧
  errInconsistentTokenBetweenSources ≠ ErrInvalidToken ∧
  Error errInconsistentTokenBetweenSources ≠ Error ErrInvalidToken.
Proof.
  intros Hy Hi Hj Hij Hci Hcj Hne. split; [|by split].
  rewrite (Validate_yields w r sources cs c); [| |done].
  - by rewrite (reconcile_disagree cs i j ci cj).
  - eapply yields_nonempty; [done|]. by intros ->.
Qed.

Lemma Validate_disagreeing_sources_inconsistent_witness :
  yields abc_xyz_request [HeaderTokenSource; FormTokenSource "csrf"] ["abc"; "xyz"] ∧
  Validate (world (seconds 1000) sample_uuid) abc_xyz_request
      [HeaderTokenSource; FormTokenSource "csrf"] (New {| checked := [] |})
    = (Return (Some errInconsistentTokenBetweenSources), New {| checked := [] |}).
Proof.
  assert (Hy : yields abc_xyz_request [HeaderTokenSource; FormTokenSource "csrf"]
                 ["abc"; "xyz"]).
  { repeat constructor. }
  split; [exact Hy|].
  apply (Validate_disagreeing_sources_inconsistent
           (world (seconds 1000) sample_uuid) abc_xyz_request
           [HeaderTokenSource; FormTokenSource "csrf"] (New {| checked := [] |})
           ["abc"; "xyz"] 0 1 "abc" "xyz" Hy);
    (reflexivity || discriminate || lia).
Defined.

Lemma DefaultTokenProvider_Check_returns (w : World) (ctx : Context)
    (token : string) (dtp : DefaultTokenProvider) :
  ∃ e, Check w ctx token dtp = (Return e, dtp).
Proof.
  simpl. unfold DefaultTokenProvider_Check.
  destruct (tokens_index dtp token) as [expire_at found].
  destruct (negb _); by eexists.
Qed.

(** C3 (the code departs from the claim): on a request whose context holds
    no token, [HeaderTokenSource] and [FormTokenSource] return the empty
    string, but [ContextTokenSource] panics: its type assertion is applied
    to a nil interface value.  The panic goes through [Validate]. *)
Theorem ContextTokenSource_panics_without_token :
  Value (Request_Context bare_request) (csrf_token_context_key 0) = any_nil ∧
  ContextTokenSource bare_request
    = Panic (panic_runtime "interface conversion: interface {} is nil, not string") ∧
  HeaderTokenSource bare_request = Return "" ∧
  FormTokenSource "csrf" bare_request = Return "" ∧
  Validate (world (seconds 1000) sample_uuid) bare_request
      [ContextTokenSource] (New abc_provider)
    = (Panic (panic_runtime "interface conversion: interface {} is nil, not string"),
       New abc_provider).
Proof. repeat split; vm_compute; reflexivity. Qed.

(** C9: [Validate] called without a source panics, it does not return an
    error; with at least one source the guard's branch is not taken and
    [Validate] is the rest of its body, which, when every source returns and
    the provider's [Check] returns, returns as well. *)
Theorem Validate_no_sources_panics {TP : Type} `{TokenProvider TP}
    (w : World) (r : Request) (c : CSRF TP) :
  Validate w r [] c = (Panic (panic_string "`sources` paramter is required"), c) ∧
  (∀ source rest,
     Validate w r (source :: rest) c = Validate_checked w r (source :: rest) c) ∧
  (∀ sources cs,
     sources ≠ [] → yields r sources cs →
     (∀ token, ∃ e tp,
        Check w (Request_Context r) token (provider c) = (Return e, tp)) →
     ∃ e c', Validate w r sources c = (Return e, c')).
Proof.
  split; [reflexivity|]. split; [reflexivity|].
  intros sources cs Hne Hy Hret.
  rewrite (Validate_yields w r sources cs c Hne Hy).
  destruct (reconcile cs "") as [e|token]; [by eauto|].
  case_decide; [by eauto|].
  unfold delegate. destruct (Hret token) as (e & tp & ->). by eauto.
Qed.

Lemma Validate_no_sources_panics_witness :
  Validate (world (seconds 1000) sample_uuid) abc_request [] (New abc_provider)
    = (Panic (panic_string "`sources` paramter is required"), New abc_provider) ∧
  ∃ e c', Validate (world (seconds 1000) sample_uuid) abc_request
            [HeaderTokenSource; FormTokenSource "csrf"] (New abc_provider)
          = (Return e, c').
Proof.
  pose proof (Validate_no_sources_panics (world (seconds 1000) sample_uuid)
                abc_request (New abc_provider)) as (Hnil & _ & Hret).
  split; [exact Hnil|].
  apply (Hret [HeaderTokenSource; FormTokenSource "csrf"] ["abc"; "abc"]).
  - discriminate.
  - repeat constructor.
  - intros token.
    destruct (DefaultTokenProvider_Check_returns (world (seconds 1000) sample_uuid)
                (Request_Context abc_request) token abc_provider) as [e He].
    by exists e, abc_provider.
Defined.

(** ** Further properties of the provider *)

Lemma Check_outcome (w : World) (ctx : Context) (token : string)
    (dtp : DefaultTokenProvider) :
  Check w ctx token dtp =
    (Return (match stored dtp token with
             | Some expire_at =>
                 if decide (time.Unix (Now w) < expire_at)
                 then None else Some ErrInvalidToken
             | None => Some ErrInvalidToken
             end), dtp).
Proof.
  destruct (stored dtp token) as [e|] eqn:Hst.
  - case_decide.
    + by apply (Check_live w ctx token dtp e).
    + apply (Check_expired w ctx token dtp e); [done | lia].
  - by apply Check_absent.
Qed.

Lemma Unix_mono (t1 t2 : time.Time) : t1 ≤ t2 → time.Unix t1 ≤ time.Unix t2.
Proof. intros Hle. unfold time.Unix. apply Z.div_le_mono; [done | done]. Qed.

Lemma provider_eta (dtp : DefaultTokenProvider) :
  {| tokens := tokens dtp; token_ttl := token_ttl dtp |} = dtp.
Proof. by destruct dtp. Qed.

(** X1: [Check] returns nil exactly when the token is a key of the map and
    the second of the call is before the stored expiry; in every other case
    (key absent, nil map, expiry reached) it returns [ErrInvalidToken].  It
    never panics and never changes the provider. *)
Theorem Check_nil_iff_live (w : World) (ctx : Context) (token : string)
    (dtp : DefaultTokenProvider) :
  (Check w ctx token dtp = (Return None, dtp) ↔
     ∃ expire_at, stored dtp token = Some expire_at ∧
                  time.Unix (Now w) < expire_at) ∧
  (Check w ctx token dtp = (Return (Some ErrInvalidToken), dtp) ↔
     ¬ ∃ expire_at, stored dtp token = Some expire_at ∧
                    time.Unix (Now w) < expire_at).
Proof.
  rewrite Check_outcome.
  destruct (stored dtp token) as [e|]; [case_decide|].
  - split; split.
    + intros _. by exists e.
    + done.
    + discriminate.
    + intros Hn. destruct Hn. by exists e.
  - split; split; try discriminate; try done.
    + intros (e' & [= <-] & ?). lia.
    + intros _ (e' & [= <-] & ?). lia.
  - split; split; try discriminate; try done.
    + by intros (e' & [= ] & _).
    + by intros _ (e' & [= ] & _).
Qed.

(** X2: a token that [Get] returned at time [Now w] is accepted by a later
    [Check] exactly while the second of the call is before the second of
    [Now w] plus [token_ttl]; from that second on it is refused. *)
Theorem Get_then_Check (w w' : World) (ctx ctx' : Context)
    (dtp dtp1 : DefaultTokenProvider) (token : string) (err : option error) :
  Get w ctx dtp = (Return (token, err), dtp1) →
  Check w' ctx' token dtp1 =
    (Return (if decide (time.Unix (Now w')
                        < time.Unix (time.Add (Now w) (token_ttl dtp)))
             then None else Some ErrInvalidToken), dtp1).
Proof.
  intros Hget. rewrite Check_outcome.
  destruct (Get_stored w ctx dtp token _ _ Hget) as ([= -> ->] & _ & Hst).
  rewrite Hst. by rewrite decide_True.
Qed.

Lemma Get_then_Check_witness :
  ∃ dtp1 : DefaultTokenProvider,
    Get (world (seconds 1000) sample_uuid) Background minute_provider
      = (Return (sample_token, None), dtp1) ∧
    Check (world (seconds 1059) other_uuid) Background sample_token dtp1
      = (Return None, dtp1) ∧
    Check (world (seconds 1060) other_uuid) Background sample_token dtp1
      = (Return (Some ErrInvalidToken), dtp1).
Proof.
  eexists. split; [vm_compute; reflexivity|]. split.
  - apply (Get_then_Check (world (seconds 1000) sample_uuid)
             (world (seconds 1059) other_uuid) Background Background
             minute_provider _ sample_token None).
    vm_compute; reflexivity.
  - apply (Get_then_Check (world (seconds 1000) sample_uuid)
             (world (seconds 1060) other_uuid) Background Background
             minute_provider _ sample_token None).
    vm_compute; reflexivity.
Defined.

(** X3: a [Get] that returns touches only the entry of the token it
    returns: every other token has the entry it had, and [Check] answers
    for it as before.  A [Get] that panics leaves the provider as it was. *)
Theorem Get_keeps_other_tokens (w : World) (ctx : Context)
    (dtp dtp1 : DefaultTokenProvider) :
  (∀ token err other,
     Get w ctx dtp = (Return (token, err), dtp1) → other ≠ token →
     stored dtp1 other = stored dtp other ∧
     ∀ w' ctx', fst (Check w' ctx' other dtp1) = fst (Check w' ctx' other dtp)) ∧
  (∀ p, Get w ctx dtp = (Panic p, dtp1) → dtp1 = dtp).
Proof.
  split.
  - intros token err other Hget Hne.
    destruct (Get_stored w ctx dtp other _ _ Hget) as ([= -> ->] & _ & Hst).
    rewrite decide_False in Hst by done. split; [done|].
    intros w' ctx'. by rewrite !Check_outcome, Hst.
  - intros p. simpl. unfold DefaultTokenProvider_Get.
    destruct (NewRandom w) as [uid [e|]]; [by intros [= _ ->]|].
    destruct (tokens dtp); [done | by intros [= _ ->]].
Qed.

Lemma Get_keeps_other_tokens_witness :
  ∃ dtp1 : DefaultTokenProvider,
    Get (world (seconds 1000) sample_uuid) Background abc_provider
      = (Return (sample_token, None), dtp1) ∧
    stored dtp1 "abc" = Some 2000.
Proof.
  eexists. split; [vm_compute; reflexivity|].
  refine (proj1 (proj1 (Get_keeps_other_tokens (world (seconds 1000) sample_uuid)
                          Background abc_provider _)
                   sample_token None "abc" _ _)).
  - vm_compute; reflexivity.
  - discriminate.
Defined.

(** X4: the zero value of [DefaultTokenProvider] has a nil map: [Check]
    refuses every token, a [gc] round does nothing, and [Get], once the
    UUID is generated, panics on the assignment to the nil map. *)
Theorem zero_value_provider (w : World) (ctx : Context) (token : string)
    (dtp : DefaultTokenProvider) :
  tokens dtp = None →
  Check w ctx token dtp = (Return (Some ErrInvalidToken), dtp) ∧
  gc_round (Now w) dtp = dtp ∧
  (snd (NewRandom w) = None →
   Get w ctx dtp = (Panic (panic_runtime "assignment to entry in nil map"), dtp)).
Proof.
  intros Hnil. split; [|split].
  - apply Check_absent. unfold stored. by rewrite Hnil.
  - unfold gc_round. by rewrite Hnil.
  - simpl. unfold DefaultTokenProvider_Get.
    destruct (NewRandom w) as [uid e]. simpl. intros ->. by rewrite Hnil.
Qed.

Lemma zero_value_provider_witness :
  Check (world (seconds 1000) sample_uuid) Background sample_token zero_provider
    = (Return (Some ErrInvalidToken), zero_provider) ∧
  Get (world (seconds 1000) sample_uuid) Background zero_provider
    = (Panic (panic_runtime "assignment to entry in nil map"), zero_provider).
Proof.
  destruct (zero_value_provider (world (seconds 1000) sample_uuid) Background
              sample_token zero_provider eq_refl) as (Hcheck & _ & Hget).
  split; [exact Hcheck | exact (Hget eq_refl)].
Defined.

Lemma Get_panic_unchanged (w : World) (ctx : Context)
    (dtp dtp1 : DefaultTokenProvider) (p : panic_value) :
  DefaultTokenProvider_Get w ctx dtp = (Panic p, dtp1) → dtp1 = dtp.
Proof.
  unfold DefaultTokenProvider_Get.
  destruct (NewRandom w) as [uid [e|]]; [by intros [= _ ->]|].
  destruct (tokens dtp); [done | by intros [= _ ->]].
Qed.

Lemma gc_round_keeps (current_time : time.Time) (dtp : DefaultTokenProvider)
    (token : string) (expire_at : Z) :
  stored (gc_round current_time dtp) token = Some expire_at ↔
  stored dtp token = Some expire_at ∧ time.Unix current_time < expire_at.
Proof.
  rewrite gc_round_stored. destruct (stored dtp token) as [e|].
  - case_decide; split.
    + by intros [= <-].
    + by intros [? _].
    + done.
    + intros [[= <-] ?]. lia.
  - split; [done | by intros [? _]].
Qed.

Lemma gc_round_ttl (current_time : time.Time) (dtp : DefaultTokenProvider) :
  token_ttl (gc_round current_time dtp) = token_ttl dtp.
Proof. unfold gc_round. by destruct (tokens dtp). Qed.

(** ** Further properties of gc *)

(** X5: two [gc] rounds in a row do what the one with the later second
    does alone; so a round is idempotent and rounds commute. *)
Theorem gc_round_twice (t1 t2 : time.Time) (dtp : DefaultTokenProvider) :
  gc_round t2 (gc_round t1 dtp) =
    gc_round (if decide (time.Unix t1 ≤ time.Unix t2) then t2 else t1) dtp.
Proof.
  destruct dtp as [[m|] ttl]; unfold gc_round; simpl; [|done].
  f_equal. f_equal. apply map_eq. intros k. rewrite !gc_range_lookup.
  destruct (m !! k) as [e|] eqn:He; rewrite ?He; [|done].
  case_decide;
    destruct (Z.ltb_spec (time.Unix t1) e); destruct (Z.ltb_spec (time.Unix t2) e);
    rewrite ?He; try done; lia.
Qed.

(** X6: a [gc] round is invisible to [Check]: for a [Check] made at the
    second of the round or later, the answer is the same whether or not the
    round has run. *)
Theorem gc_round_invisible_to_Check (current_time : time.Time) (w : World)
    (ctx : Context) (token : string) (dtp : DefaultTokenProvider) :
  time.Unix current_time ≤ time.Unix (Now w) →
  fst (Check w ctx token (gc_round current_time dtp))
    = fst (Check w ctx token dtp).
Proof.
  intros Hle. rewrite !Check_outcome. simpl. rewrite gc_round_stored.
  destruct (stored dtp token) as [e|]; [|done].
  repeat case_decide; done || lia.
Qed.

Lemma gc_round_invisible_to_Check_witness :
  fst (Check (world (seconds 1070) sample_uuid) Background sample_token
         (gc_round (seconds 1065) two_token_provider))
    = Return (Some ErrInvalidToken) ∧
  fst (Check (world (seconds 1070) sample_uuid) Background other_token
         (gc_round (seconds 1065) two_token_provider))
    = Return None.
Proof.
  split.
  - rewrite (gc_round_invisible_to_Check (seconds 1065)
               (world (seconds 1070) sample_uuid) Background sample_token
               two_token_provider); [vm_compute; reflexivity|].
    vm_compute; discriminate.
  - rewrite (gc_round_invisible_to_Check (seconds 1065)
               (world (seconds 1070) sample_uuid) Background other_token
               two_token_provider); [vm_compute; reflexivity|].
    vm_compute; discriminate.
Defined.

(** X7: a [gc] round only deletes: every entry of the map afterwards was
    in the map before with the same expiry, [len(dtp.tokens)] does not grow,
    [token_ttl] is kept and a nil map stays nil. *)
Theorem gc_round_only_deletes (current_time : time.Time)
    (dtp : DefaultTokenProvider) :
  (∀ token expire_at,
     stored (gc_round current_time dtp) token = Some expire_at →
     stored dtp token = Some expire_at) ∧
  (len_tokens (gc_round current_time dtp) ≤ len_tokens dtp)%nat ∧
  token_ttl (gc_round current_time dtp) = token_ttl dtp ∧
  (tokens (gc_round current_time dtp) = None ↔ tokens dtp = None).
Proof.
  split; [|split; [|split]].
  - intros token e Hst. by apply gc_round_keeps in Hst as [? _].
  - unfold len_tokens, gc_round.
    destruct (tokens dtp) as [m|] eqn:Hm; simpl; [|by rewrite Hm].
    apply map_subseteq_size, map_subseteq_spec. intros k e.
    rewrite gc_range_lookup. destruct (m !! k); [|done].
    by destruct (_ <? _).
  - apply gc_round_ttl.
  - unfold gc_round. destruct (tokens dtp) as [m|] eqn:Hm; simpl.
    + split; discriminate.
    + by rewrite Hm.
Qed.

(** X8: what a [gc] goroutine leaves in the map: an entry is there
    afterwards exactly when it was there before and its expiry is ahead of
    the second of every round done, the rounds being the ticks received
    before the context is done.  Whatever [select] would receive after the
    context is done is not acted on. *)
Theorem gc_keeps_unexpired (events : list gc_event)
    (dtp : DefaultTokenProvider) :
  (∀ token expire_at,
     stored (gc events dtp) token = Some expire_at ↔
     stored dtp token = Some expire_at ∧
     Forall (λ current_time, time.Unix current_time < expire_at) (rounds events)) ∧
  (∀ later, gc (events ++ ctx_done :: later)%list dtp = gc events dtp).
Proof.
  split.
  - revert dtp. induction events as [|[|ct] rest IH]; intros dtp token e; simpl.
    + split; [by intros ?; split | by intros [? _]].
    + split; [by intros ?; split | by intros [? _]].
    + rewrite IH, gc_round_keeps, Forall_cons. tauto.
  - intros later. revert dtp.
    induction events as [|[|ct] rest IH]; intros dtp; simpl; [done|done|].
    apply IH.
Qed.

(** ** A provider made by NewDefaultTokenProvider *)

(** With [token_ttl] zero, "every stored expiry is at most the second of
    [t]" is kept by every critical section whose clock reading is [t] or
    later, and makes every [Check] from [t] on refuse. *)
Lemma call_run_all_refused (calls : list call) (t : time.Time)
    (dtp : DefaultTokenProvider) :
  token_ttl dtp = 0 →
  (∀ token expire_at, stored dtp token = Some expire_at → expire_at ≤ time.Unix t) →
  clock_from t calls →
  Forall (λ res, match res with
                 | result_Check o => o = Return (Some ErrInvalidToken)
                 | _ => True
                 end) (fst (call_run calls dtp)).
Proof.
  revert t dtp. induction calls as [|k rest IH]; intros t dtp Httl Hinv Hclock;
    simpl; [constructor|].
  destruct k as [w ctx|w ctx token|ct]; simpl in *.
  - destruct Hclock as [Hle Hclock].
    destruct (DefaultTokenProvider_Get w ctx dtp) as [o dtp1] eqn:Hget.
    specialize (IH (Now w) dtp1).
    destruct (call_run rest dtp1) as [results dtp2]. simpl in *.
    constructor; [done|]. destruct o as [r|p].
    + apply IH; [|intros token e|done].
      * destruct (Get_stored w ctx dtp "" _ _ Hget) as (_ & -> & _). done.
      * destruct (Get_stored w ctx dtp token _ _ Hget) as (_ & _ & ->).
        rewrite Httl. unfold time.Add. rewrite Z.add_0_r.
        case_decide; [by intros [= <-]|].
        intros Hst. pose proof (Hinv _ _ Hst). pose proof (Unix_mono _ _ Hle). lia.
    + apply Get_panic_unchanged in Hget as ->.
      apply IH; [done| |done]. intros token e Hst.
      pose proof (Hinv _ _ Hst). pose proof (Unix_mono _ _ Hle). lia.
  - destruct Hclock as [Hle Hclock].
    pose proof (Check_outcome w ctx token dtp) as Hcheck. simpl in Hcheck.
    rewrite Hcheck. specialize (IH (Now w) dtp).
    destruct (call_run rest dtp) as [results dtp2]. simpl in *.
    constructor.
    + destruct (stored dtp token) as [e|] eqn:Hst; [|done].
      pose proof (Hinv _ _ Hst). pose proof (Unix_mono _ _ Hle).
      case_decide; [lia | done].
    + apply IH; [done| |done]. intros token' e Hst.
      pose proof (Hinv _ _ Hst). pose proof (Unix_mono _ _ Hle). lia.
  - specialize (IH t (gc_round ct dtp)).
    destruct (call_run rest (gc_round ct dtp)) as [results dtp2]. simpl in *.
    constructor; [done|]. apply IH; [by rewrite gc_round_ttl| |done].
    intros token e Hst. apply gc_round_keeps in Hst as [Hst _]. by eapply Hinv.
Qed.

(** X9: on a provider made by [NewDefaultTokenProvider], whose [token_ttl]
    is never set, no [Check] ever returns nil while the wall clock does not
    go backwards: whatever [Get], [Check] and [gc] do to the provider, in
    any order, every [Check] returns [ErrInvalidToken]. *)
Theorem NewDefaultTokenProvider_refuses_every_token (calls : list call)
    (t : time.Time) :
  clock_from t calls →
  Forall (λ res, match res with
                 | result_Check o => o = Return (Some ErrInvalidToken)
                 | _ => True
                 end) (fst (call_run calls NewDefaultTokenProvider)).
Proof.
  intros Hclock. apply (call_run_all_refused calls t); [done| |done].
  intros token e. unfold stored. simpl. by rewrite lookup_empty.
Qed.

Lemma NewDefaultTokenProvider_refuses_every_token_witness :
  clock_from (seconds 0)
    [call_Get (world (seconds 1000) sample_uuid) Background;
     call_Check (world (seconds 1000) other_uuid) Background sample_token;
     call_gc_round (seconds 900);
     call_Check (world (seconds 1001) other_uuid) Background sample_token] ∧
  fst (call_run
         [call_Get (world (seconds 1000) sample_uuid) Background;
          call_Check (world (seconds 1000) other_uuid) Background sample_token;
          call_gc_round (seconds 900);
          call_Check (world (seconds 1001) other_uuid) Background sample_token]
         NewDefaultTokenProvider)
    = [result_Get (Return (sample_token, None));
       result_Check (Return (Some ErrInvalidToken));
       result_gc_round;
       result_Check (Return (Some ErrInvalidToken))] ∧
  Forall (λ res, match res with
                 | result_Check o => o = Return (Some ErrInvalidToken)
                 | _ => True
                 end)
    (fst (call_run
            [call_Get (world (seconds 1000) sample_uuid) Background;
             call_Check (world (seconds 1000) other_uuid) Background sample_token;
             call_gc_round (seconds 900);
             call_Check (world (seconds 1001) other_uuid) Background sample_token]
            NewDefaultTokenProvider)).
Proof.
  assert (Hclock : clock_from (seconds 0)
    [call_Get (world (seconds 1000) sample_uuid) Background;
     call_Check (world (seconds 1000) other_uuid) Background sample_token;
     call_gc_round (seconds 900);
     call_Check (world (seconds 1001) other_uuid) Background sample_token]).
  { simpl. unfold seconds, time.Second, time.Nanosecond. lia. }
  split; [exact Hclock|]. split; [vm_compute; reflexivity|].
  exact (NewDefaultTokenProvider_refuses_every_token _ (seconds 0) Hclock).
Defined.

(** ** Further properties of Validate *)

Lemma Validate_range_app (r : Request) (prefix rest : list TokenSourceFunc)
    (token : string) :
  Validate_range r (prefix ++ rest)%list token =
    match Validate_range r prefix token with
    | Return (inr token1) => Validate_range r rest token1
    | Return (inl e) => Return (inl e)
    | Panic p => Panic p
    end.
Proof.
  revert token. induction prefix as [|source prefix IH]; intros token; simpl;
    [done|].
  case_decide; destruct (source r) as [v|p]; try done.
  case_decide; [done | apply IH].
Qed.

Lemma Validate_range_stops_nonempty (r : Request) (prefix : list TokenSourceFunc) :
  Validate_range r prefix "" ≠ Return (inr "") → prefix ≠ [].
Proof. by intros Hne ->. Qed.

Lemma reconcile_from_cases (cs : list string) (token : string) :
  token ≠ "" →
  (Forall (λ c, c = token) cs ∧ reconcile cs token = inr token) ∨
  ((∃ mid x post, cs = (mid ++ x :: post)%list ∧ x ≠ token) ∧
   reconcile cs token = inl errInconsistentTokenBetweenSources).
Proof.
  intros Htok. induction cs as [|c cs IH]; simpl; [by left|].
  rewrite decide_False by done.
  destruct (decide (token = c)) as [<-|Hc].
  - rewrite decide_False by (by intros ?).
    destruct IH as [[Hall Hrec]|[(mid & x & post & -> & Hx) Hrec]].
    + left. split; [by constructor | done].
    + right. split; [|done]. by exists (token :: mid), x, post.
  - rewrite decide_True by done.
    right. split; [|done]. exists [], c, cs. split; [done | by intros ->].
Qed.

Lemma reconcile_cases (cs : list string) :
  (Forall (λ c, c = "") cs ∧ reconcile cs "" = inr "") ∨
  ∃ pre v post,
    cs = (pre ++ v :: post)%list ∧ Forall (λ c, c = "") pre ∧ v ≠ "" ∧
    ((Forall (λ c, c = v) post ∧ reconcile cs "" = inr v) ∨
     ((∃ mid x post', post = (mid ++ x :: post')%list ∧ x ≠ v) ∧
      reconcile cs "" = inl errInconsistentTokenBetweenSources)).
Proof.
  induction cs as [|c cs IH]; [by left|].
  destruct (decide (c = "")) as [->|Hc].
  - destruct IH as [[Hall Hrec]|(pre & v & post & -> & Hpre & Hv & Hcases)].
    + left. split; [by constructor | done].
    + right. exists ("" :: pre), v, post.
      split; [done|]. split; [by constructor|]. split; [done|]. exact Hcases.
  - right. exists [], c, cs. split; [done|]. split; [constructor|].
    split; [done|]. simpl. apply (reconcile_from_cases cs c Hc).
Qed.

Lemma uuid_String_nonempty (u : uuid.UUID) : uuid.String u ≠ "".
Proof.
  unfold uuid.String. destruct (uuid.hex_Encode (take 4 u)); discriminate.
Qed.

(** X10: the loop of [Validate] stops at the first mismatch and at the
    first panic: when the loop over a prefix of the sources returns the
    inconsistency error, or panics, [Validate] gives that result whatever
    sources follow; they are not called, not even one that would panic. *)
Theorem Validate_stops_early {TP : Type} `{TokenProvider TP}
    (w : World) (r : Request) (prefix rest : list TokenSourceFunc)
    (c : CSRF TP) :
  (∀ e, Validate_range r prefix "" = Return (inl e) →
        e = errInconsistentTokenBetweenSources ∧
        Validate w r (prefix ++ rest)%list c = (Return (Some e), c)) ∧
  (∀ p, Validate_range r prefix "" = Panic p →
        Validate w r (prefix ++ rest)%list c = (Panic p, c)).
Proof.
  assert (Herr : ∀ token e, Validate_range r prefix token = Return (inl e) →
                 e = errInconsistentTokenBetweenSources).
  { induction prefix as [|source prefix IH]; intros token e; simpl; [done|].
    case_decide; destruct (source r) as [v|p]; try done; [apply IH|].
    case_decide; [by intros [= <-] | apply IH]. }
  split.
  - intros e Hloop. split; [by eapply Herr|].
    destruct prefix as [|source prefix]; [done|].
    rewrite <- app_comm_cons, Validate_some_source, app_comm_cons.
    unfold Validate_checked. by rewrite Validate_range_app, Hloop.
  - intros p Hloop. destruct prefix as [|source prefix]; [done|].
    rewrite <- app_comm_cons, Validate_some_source, app_comm_cons.
    unfold Validate_checked. by rewrite Validate_range_app, Hloop.
Qed.

Lemma Validate_stops_early_witness :
  Validate (world (seconds 1000) sample_uuid) abc_xyz_request
      [HeaderTokenSource; FormTokenSource "csrf"; panicking_source]
      (New {| checked := [] |})
    = (Return (Some errInconsistentTokenBetweenSources), New {| checked := [] |}) ∧
  Validate (world (seconds 1000) sample_uuid) abc_xyz_request
      [panicking_source; HeaderTokenSource] (New {| checked := [] |})
    = (Panic (panic_string "source failed"), New {| checked := [] |}).
Proof.
  split.
  - apply (proj1 (Validate_stops_early (world (seconds 1000) sample_uuid)
                    abc_xyz_request [HeaderTokenSource; FormTokenSource "csrf"]
                    [panicking_source] (New {| checked := [] |}))).
    vm_compute; reflexivity.
  - apply (proj2 (Validate_stops_early (world (seconds 1000) sample_uuid)
                    abc_xyz_request [panicking_source] [HeaderTokenSource]
                    (New {| checked := [] |}))).
    vm_compute; reflexivity.
Defined.

(** X11: when every source returns, [Validate] has exactly three outcomes,
    decided by the candidates: all empty, [ErrInvalidToken] without a call
    of [Check]; empty candidates, then a non-empty [v], then only [v]: the
    result of [Check] on [v]; empty candidates, then a non-empty [v], then
    somewhere a candidate other than [v] (the empty string included): the
    inconsistency error without a call of [Check]. *)
Theorem Validate_outcomes {TP : Type} `{TokenProvider TP}
    (w : World) (r : Request) (sources : list TokenSourceFunc) (c : CSRF TP)
    (cs : list string) :
  sources ≠ [] → yields r sources cs →
  (Forall (λ cand, cand = "") cs ∧
   Validate w r sources c = (Return (Some ErrInvalidToken), c)) ∨
  ∃ pre v post,
    cs = (pre ++ v :: post)%list ∧ Forall (λ cand, cand = "") pre ∧ v ≠ "" ∧
    ((Forall (λ cand, cand = v) post ∧
      Validate w r sources c = delegate w r v c) ∨
     ((∃ mid x post', post = (mid ++ x :: post')%list ∧ x ≠ v) ∧
      Validate w r sources c
        = (Return (Some errInconsistentTokenBetweenSources), c))).
Proof.
  intros Hne Hy. rewrite (Validate_yields w r sources cs c Hne Hy).
  destruct (reconcile_cases cs)
    as [[Hall ->]|(pre & v & post & -> & Hpre & Hv & [[Hpost Hrec]|[Hmis Hrec]])].
  - by left.
  - right. exists pre, v, post. split; [done|]. split; [done|]. split; [done|].
    left. split; [done|]. rewrite Hrec. by rewrite decide_False.
  - right. exists pre, v, post. split; [done|]. split; [done|]. split; [done|].
    right. split; [done|]. by rewrite Hrec.
Qed.

Lemma Validate_outcomes_witness :
  (Forall (λ cand, cand = "") ["abc"; "abc"] ∧
   Validate (world (seconds 1000) sample_uuid) abc_request
       [HeaderTokenSource; FormTokenSource "csrf"] (New {| checked := [] |})
     = (Return (Some ErrInvalidToken), New {| checked := [] |})) ∨
  ∃ pre v post,
    ["abc"; "abc"] = (pre ++ v :: post)%list ∧
    Forall (λ cand, cand = "") pre ∧ v ≠ "" ∧
    ((Forall (λ cand, cand = v) post ∧
      Validate (world (seconds 1000) sample_uuid) abc_request
          [HeaderTokenSource; FormTokenSource "csrf"] (New {| checked := [] |})
        = delegate (world (seconds 1000) sample_uuid) abc_request v
            (New {| checked := [] |})) ∨
     ((∃ mid x post', post = (mid ++ x :: post')%list ∧ x ≠ v) ∧
      Validate (world (seconds 1000) sample_uuid) abc_request
          [HeaderTokenSource; FormTokenSource "csrf"] (New {| checked := [] |})
        = (Return (Some errInconsistentTokenBetweenSources),
           New {| checked := [] |}))).
Proof.
  apply (Validate_outcomes (world (seconds 1000) sample_uuid) abc_request
           [HeaderTokenSource; FormTokenSource "csrf"] (New {| checked := [] |})
           ["abc"; "abc"]).
  - discriminate.
  - repeat constructor.
Defined.

(** ** Validate over a DefaultTokenProvider, GetToken and the middleware *)

Lemma delegate_outcome (w : World) (r : Request) (token : string)
    (dtp : DefaultTokenProvider) :
  delegate w r token (New dtp) =
    (Return (match stored dtp token with
             | Some expire_at =>
                 if decide (time.Unix (Now w) < expire_at)
                 then None else Some ErrInvalidToken
             | None => Some ErrInvalidToken
             end), New dtp).
Proof.
  unfold delegate.
  pose proof (Check_outcome w (Request_Context r) token dtp) as Hc.
  simpl in Hc. simpl. by rewrite Hc.
Qed.

(** What [Validate] returns nil on: the loop ran to its end with a
    non-empty token that is stored and unexpired. *)
Lemma Validate_nil_inv (w : World) (r : Request)
    (sources : list TokenSourceFunc) (dtp : DefaultTokenProvider)
    (c1 : CSRF DefaultTokenProvider) :
  Validate w r sources (New dtp) = (Return None, c1) →
  ∃ token expire_at,
    sources ≠ [] ∧ Validate_range r sources "" = Return (inr token) ∧
    token ≠ "" ∧ stored dtp token = Some expire_at ∧
    time.Unix (Now w) < expire_at.
Proof.
  destruct sources as [|source rest]; [done|].
  rewrite Validate_some_source. unfold Validate_checked.
  destruct (Validate_range r (source :: rest) "") as [[e|token]|p]; [done| |done].
  case_decide; [done|]. rewrite delegate_outcome.
  destruct (stored dtp token) as [e|] eqn:Hst; [|done].
  case_decide; [|done]. intros _. by exists token, e.
Qed.

(** X12: [Validate] over a [DefaultTokenProvider] never changes the
    provider, whatever it returns, so it does not use a token up: when it
    has returned nil for a request, it returns nil for the same request
    again at every time before the token's expiry. *)
Theorem Validate_does_not_consume (w : World) (r : Request)
    (sources : list TokenSourceFunc) (dtp : DefaultTokenProvider) :
  snd (Validate w r sources (New dtp)) = New dtp ∧
  (fst (Validate w r sources (New dtp)) = Return None →
   ∃ token expire_at,
     stored dtp token = Some expire_at ∧ time.Unix (Now w) < expire_at ∧
     ∀ w2, time.Unix (Now w2) < expire_at →
           Validate w2 r sources (snd (Validate w r sources (New dtp)))
             = (Return None, New dtp)).
Proof.
  assert (Hsnd : snd (Validate w r sources (New dtp)) = New dtp).
  { destruct sources as [|source rest]; [done|].
    rewrite Validate_some_source. unfold Validate_checked.
    destruct (Validate_range r (source :: rest) "") as [[e|token]|p]; try done.
    case_decide; [done|]. by rewrite delegate_outcome. }
  split; [exact Hsnd|]. intros Hnil.
  destruct (Validate w r sources (New dtp)) as [res c1] eqn:Hval.
  simpl in Hnil, Hsnd. subst res c1.
  destruct (Validate_nil_inv _ _ _ _ _ Hval)
    as (token & e & Hne & Hloop & Htok & Hst & Hlive).
  exists token, e. split; [done|]. split; [done|]. intros w2 Hw2. simpl.
  destruct sources as [|source rest]; [done|].
  rewrite Validate_some_source. unfold Validate_checked. rewrite Hloop.
  rewrite decide_False by done. rewrite delegate_outcome, Hst.
  by rewrite decide_True.
Qed.

Lemma Validate_does_not_consume_witness :
  fst (Validate (world (seconds 1000) sample_uuid) abc_request
         [HeaderTokenSource; FormTokenSource "csrf"] (New abc_provider))
    = Return None ∧
  Validate (world (seconds 1999) sample_uuid) abc_request
      [HeaderTokenSource; FormTokenSource "csrf"] (New abc_provider)
    = (Return None, New abc_provider).
Proof.
  assert (Hnil : fst (Validate (world (seconds 1000) sample_uuid) abc_request
                        [HeaderTokenSource; FormTokenSource "csrf"]
                        (New abc_provider)) = Return None).
  { vm_compute; reflexivity. }
  split; [exact Hnil|].
  destruct (proj2 (Validate_does_not_consume (world (seconds 1000) sample_uuid)
                     abc_request [HeaderTokenSource; FormTokenSource "csrf"]
                     abc_provider) Hnil)
    as (token & e & Hst & _ & Hagain).
  assert (Hsnd : snd (Validate (world (seconds 1000) sample_uuid) abc_request
                        [HeaderTokenSource; FormTokenSource "csrf"]
                        (New abc_provider)) = New abc_provider).
  { vm_compute; reflexivity. }
  rewrite Hsnd in Hagain. apply Hagain.
  assert (Hloop : Validate_range abc_request
                    [HeaderTokenSource; FormTokenSource "csrf"] ""
                  = Return (inr "abc")) by (vm_compute; reflexivity).
  destruct (Validate_nil_inv (world (seconds 1000) sample_uuid) abc_request
              [HeaderTokenSource; FormTokenSource "csrf"] abc_provider
              (New abc_provider)) as (token' & e' & _ & Hloop' & _ & Hst' & _).
  { vm_compute; reflexivity. }
  rewrite Hloop in Hloop'. injection Hloop' as <-.
  vm_compute in Hst'. injection Hst' as <-.
  clear Hagain. revert Hst.
  destruct (decide (token = "abc")) as [->|Hne].
  - vm_compute. intros [= <-]. reflexivity.
  - unfold stored, abc_provider. simpl. by rewrite lookup_singleton_ne.
Defined.

(** X13: issuing and validating compose: a token that [GetToken] returned
    at time [Now w], presented by the sources of a later request (empty
    candidates first, then the token, then only the token), makes
    [Validate] return nil while the second of the call is before the second
    of [Now w] plus [token_ttl], and [ErrInvalidToken] from then on. *)
Theorem GetToken_then_Validate (w w' : World) (ctx : Context) (r : Request)
    (sources : list TokenSourceFunc) (dtp : DefaultTokenProvider)
    (c1 : CSRF DefaultTokenProvider) (token : string) (err : option error)
    (pre post : list string) :
  GetToken w ctx (New dtp) = (Return (token, err), c1) →
  yields r sources (pre ++ token :: post)%list →
  Forall (λ cand, cand = "") pre → Forall (λ cand, cand = token) post →
  Validate w' r sources c1 =
    (Return (if decide (time.Unix (Now w')
                        < time.Unix (time.Add (Now w) (token_ttl dtp)))
             then None else Some ErrInvalidToken), c1).
Proof.
  unfold GetToken. simpl.
  destruct (DefaultTokenProvider_Get w ctx dtp) as [res dtp1] eqn:Hget.
  intros [= -> <-] Hy Hpre Hpost.
  destruct (Get_stored w ctx dtp token _ _ Hget) as ([= -> ->] & _ & Hst).
  rewrite decide_True in Hst by done.
  rewrite (Validate_yields w' r sources _ (New dtp1)
             (yields_nonempty _ _ _ Hy (not_eq_sym (app_cons_not_nil _ _ _))) Hy).
  rewrite reconcile_skips_leading_empty by done. simpl.
  pose proof (uuid_String_nonempty (drawn w)) as Hne.
  destruct (decide (uuid.String (drawn w) = "")) as [Heq|_]; [done|].
  rewrite reconcile_agree by done.
  rewrite decide_False by done. by rewrite delegate_outcome, Hst.
Qed.

Lemma GetToken_then_Validate_witness :
  ∃ c1 : CSRF DefaultTokenProvider,
    GetToken (world (seconds 1000) sample_uuid) Background (New minute_provider)
      = (Return (sample_token, None), c1) ∧
    Validate (world (seconds 1059) other_uuid) sample_request
        [FormTokenSource "csrf"; HeaderTokenSource] c1
      = (Return None, c1) ∧
    Validate (world (seconds 1060) other_uuid) sample_request
        [FormTokenSource "csrf"; HeaderTokenSource] c1
      = (Return (Some ErrInvalidToken), c1).
Proof.
  eexists. split; [vm_compute; reflexivity|]. split.
  - apply (GetToken_then_Validate (world (seconds 1000) sample_uuid)
             (world (seconds 1059) other_uuid) Background sample_request
             [FormTokenSource "csrf"; HeaderTokenSource] minute_provider _
             sample_token None [""] []).
    + vm_compute; reflexivity.
    + repeat constructor.
    + repeat constructor.
    + constructor.
  - apply (GetToken_then_Validate (world (seconds 1000) sample_uuid)
             (world (seconds 1060) other_uuid) Background sample_request
             [FormTokenSource "csrf"; HeaderTokenSource] minute_provider _
             sample_token None [""] []).
    + vm_compute; reflexivity.
    + repeat constructor.
    + repeat constructor.
    + constructor.
Defined.



(** ** The gc goroutine and reclamation *)







